(** * Average Calculator microservice: the sliding window of [server.js]

    A shallow embedding of [src/hirthick/server.js].  The module-level
    variable [numberWindow] is threaded explicitly: every function that
    reads or assigns it takes the current array and returns the new one.
    JavaScript arrays are lists, [Array.prototype.length] is an integer
    ([Z]), and [slice] follows the ECMAScript definition including its
    treatment of negative and out-of-range indices.  Where the code
    computes with Numbers, in the average and its display, they are
    binary64 values with the IEEE 754 operations. *)

From Stdlib Require Import ZArith QArith Qround Qpower Lia Floats.
From stdpp Require Import base decidable list strings pretty gmap.

Open Scope Z_scope.

(** ** JavaScript array primitives used by the service *)

Module JsArray.
Section array.
Context {A : Type} `{EqDecision A}.

(** [arr.length] *)
Definition len (arr : list A) : Z := Z.of_nat (length arr).

(** [arr.includes(x)]: a linear search.  Equality of [A] stands for
    SameValueZero on the values the upstream services send. *)
Definition includes (arr : list A) (x : A) : bool := bool_decide (x ∈ arr).

(** The index normalisation shared by both arguments of [slice]:
    a negative index counts from the end, and the result is clamped
    to [0 .. len]. *)
Definition relativeIndex (length_ rel : Z) : Z :=
  if rel <? 0 then Z.max (length_ + rel) 0 else Z.min rel length_.

(** [arr.slice(start, end)]; [end_ = None] is the one-argument call. *)
Definition slice (arr : list A) (start : Z) (end_ : option Z) : list A :=
  let k := relativeIndex (len arr) start in
  let final :=
    match end_ with
    | None => len arr
    | Some e => relativeIndex (len arr) e
    end in
  take (Z.to_nat (final - k)) (drop (Z.to_nat k) arr).

End array.
End JsArray.

Import JsArray.

(** ** The window aggregator *)

(** [const WINDOW_SIZE = 10;] *)
Definition WINDOW_SIZE : Z := 10.

Section window.
Context {A : Type} `{EqDecision A}.

(** [function updateWindow(newNumbers)], lines 106-116.  The first
    argument is the value of the global [numberWindow] on entry, the
    result its value on exit. *)
Definition updateWindow (numberWindow newNumbers : list A) : list A :=
  let unique := filter (λ num, negb (includes numberWindow num)) newNumbers in
  if len unique =? 0 then numberWindow
  else
    let overflow := len numberWindow + len unique - WINDOW_SIZE in
    let numberWindow :=
      if overflow >? 0 then slice numberWindow overflow None
      else numberWindow in
    numberWindow ++ slice unique 0 (Some (WINDOW_SIZE - len numberWindow)).

(** The window after a run of the process: it starts as [[]]
    ([let numberWindow = [];]) and each request that reaches
    [updateWindow] merges one fetched batch. *)
Definition windowAfter (batches : list (list A)) : list A :=
  fold_left updateWindow batches [].

(** The values of a batch that the window does not hold yet, in the
    batch's order (the constant [unique] of [updateWindow]). *)
Definition fresh (numberWindow newNumbers : list A) : list A :=
  filter (λ num, num ∉ numberWindow) newNumbers.

(** The merge algorithm as the specification words it, steps 2 and 3:
    [overflow = len(current_window) + len(unique) - capacity]; when it
    is positive the first [overflow] elements are removed; then
    [unique[0:take]] is appended, [take = capacity - len(trimmed)]. *)
Definition merge_spec (current_window new_numbers : list A) (capacity : Z)
  : list A :=
  let unique := fresh current_window new_numbers in
  let overflow := len current_window + len unique - capacity in
  let trimmed_window :=
    if bool_decide (overflow > 0) then drop (Z.to_nat overflow) current_window
    else current_window in
  let take_ := capacity - len trimmed_window in
  trimmed_window ++ take (Z.to_nat take_) unique.

End window.

(** ** Numbers

    A JavaScript Number is a binary64 value, here a primitive [float]
    with the IEEE 754 operations.  The window is kept as the list of
    the integers the upstream services send; [ofInteger] gives the
    Number that [JSON.parse] yields for an integer, the nearest binary64
    value. *)

Definition Z2SF (z : Z) : spec_float := binary_normalize prec emax z 0 false.

Definition ofInteger (z : Z) : float := SF2Prim (Z2SF z).

(** The rational a finite Number stands for, in lowest terms; [None]
    for the infinities and NaN. *)
Definition realValue (x : float) : option Q :=
  match Prim2SF x with
  | S754_zero _ => Some 0%Q
  | S754_finite s m e =>
      let magnitude := (inject_Z (Zpos m) * Qpower 2 e)%Q in
      Some (Qred (if s then (- magnitude)%Q else magnitude))
  | S754_infinity _ | S754_nan => None
  end.

(** [function calculateAverage(numbers)], lines 119-123: every addition
    of the [reduce] and the final division are binary64 operations. *)
Definition calculateAverage (numbers : list float) : float :=
  if len numbers =? 0 then 0%float
  else
    let sum := fold_left (λ acc num, acc + num)%float numbers 0%float in
    (sum / ofInteger (len numbers))%float.

(** The sum of a list of integers, exact, against which the [reduce] of
    [calculateAverage] is compared. *)
Fixpoint total (numbers : list Z) : Z :=
  match numbers with
  | [] => 0
  | num :: rest => num + total rest
  end.

(** The sum of the absolute values: a bound on every partial sum. *)
Definition magnitude (numbers : list Z) : Z := total (Z.abs <$> numbers).

(** The binary64 representation of a positive integer below [2 ^ 53]:
    a mantissa of 53 bits and the exponent that goes with it. *)
Definition canon (s : bool) (N : Z) : spec_float :=
  S754_finite s (Z.to_pos (N * 2 ^ (52 - Z.log2 N))) (Z.log2 N - 52).

(** [Number.parseFloat] on the digits of [n] with the point before the
    last two: the binary64 value nearest to [n / 100], ties to even. *)
Definition parseHundredths (n : Z) : float :=
  match n with
  | Zpos _ =>
      let '(mz, ez, lz) := SFdiv_core_binary prec emax n 0 100 0 in
      SF2Prim (binary_round_aux prec emax false mz ez lz)
  | _ => 0%float
  end.

(** [Number.parseFloat(avg.toFixed(2))], line 69.  [toFixed] prints NaN
    and the infinities by name and a magnitude of [10 ^ 21] or more in
    exponent notation, all of which [parseFloat] reads back as the same
    Number; otherwise it prints the integer [n] nearest to a hundred
    times the magnitude, the larger one on a tie, with two decimals and
    the sign, and [parseFloat] rounds that decimal to binary64. *)
Definition toFixed2 (x : float) : float :=
  match Prim2SF x with
  | S754_nan => nan
  | S754_infinity _ => x
  | S754_zero _ => 0%float
  | S754_finite s m e =>
      let magnitude := (inject_Z (Zpos m) * Qpower 2 e)%Q in
      if Qle_bool (inject_Z (10 ^ 21)) magnitude then x
      else
        let n := Qfloor (magnitude * 100 + (1 # 2)) in
        if s then (- parseHundredths n)%float else parseHundredths n
  end.

(** ** The upstream fetcher *)

Record JsError := mkError { name : string; message : string }.

(** How a [try] block or a call ends. *)
Inductive Completion (T : Type) : Type :=
  | Return (value : T)
  | Throw (err : JsError).
Arguments Return {T} value.
Arguments Throw {T} err.

(** What [response.json()] yields.  [JsonData numbers] is any parsed
    value other than [null]; [numbers] is its [numbers] property, [None]
    when the property is absent or falsy. *)
Inductive JsonBody : Type :=
  | InvalidJson (reason : string)
  | JsonNull
  | JsonData (numbers : option (list Z)).

(** How the race between [fetch] and the [setTimeout] callback ends. *)
Inductive FetchSettlement : Type :=
  | TimerFirst
  | NetworkError (reason : string)
  | Responded (ok : bool) (status : Z) (body : JsonBody).

(** The error [fetch] rejects with once [controller.abort()] has run. *)
Definition abortError : JsError :=
  mkError "AbortError" "The user aborted a request.".

(** [async function fetchNumbersWithTimeout(url, timeoutMs)], lines
    81-103, as a function of how the request it issues settles. *)
Definition fetchNumbersWithTimeout (settled : FetchSettlement)
  : Completion (list Z) :=
  let attempt :=
    match settled with
    | TimerFirst => Throw abortError
    | NetworkError reason => Throw (mkError "FetchError" reason)
    | Responded ok status body =>
        if negb ok then Throw (mkError "Error" ("Status: " +:+ pretty status))
        else
          match body with
          | InvalidJson reason => Throw (mkError "SyntaxError" reason)
          | JsonNull =>
              Throw (mkError "TypeError"
                       "Cannot read properties of null (reading 'numbers')")
          | JsonData numbers => Return (default [] numbers)
          end
    end in
  match attempt with
  | Return numbers => Return numbers
  | Throw err =>
      if String.eqb (name err) "AbortError" then Return [] else Throw err
  end.

(** A settlement that is a failure of the request: the timer, the
    network, a non-success status, or a body that cannot be read. *)
Definition isFailure (settled : FetchSettlement) : bool :=
  match settled with
  | TimerFirst | NetworkError _ => true
  | Responded ok _ body =>
      negb ok ||
      match body with
      | InvalidJson _ | JsonNull => true
      | JsonData _ => false
      end
  end.

Definition isTimeout (settled : FetchSettlement) : bool :=
  match settled with
  | TimerFirst => true
  | _ => false
  end.

(** ** The route [GET /numbers/:numberid] *)

Definition API_ENDPOINTS : gmap string string :=
  <["p" := "http://20.244.56.144/evaluation-service/primes"]>
  (<["f" := "http://20.244.56.144/evaluation-service/fibo"]>
  (<["e" := "http://20.244.56.144/evaluation-service/even"]>
  (<["r" := "http://20.244.56.144/evaluation-service/rand"]> ∅))).

Inductive ResponseBody : Type :=
  | NumbersReport (windowPrevState windowCurrState numbers : list Z)
      (avg : float)
  | ErrorReport (error : string)
  | FailureReport (error message : string).

Record HttpResponse := mkResponse { status : Z; body : ResponseBody }.

(** The handler runs up to its single [await]: either it has replied, or
    it is suspended on a fetch and resumes with the settlement and with
    the value [numberWindow] has at that moment. *)
Inductive Handler : Type :=
  | Replied (res : HttpResponse)
  | Awaiting (url : string) (timeoutMs : Z)
      (resume : FetchSettlement → list Z → HttpResponse * list Z).

(** Lines 55-77: the handler from the settlement of its [await] on,
    inside the [try].  [windowPrevState] is the copy taken before the
    fetch; [numberWindow] is the global as it is when the handler
    resumes. *)
Definition afterFetch (windowPrevState : list Z) (settled : FetchSettlement)
    (numberWindow : list Z) : HttpResponse * list Z :=
  match fetchNumbersWithTimeout settled with
  | Return numbers =>
      let numberWindow := updateWindow numberWindow numbers in
      let avg := calculateAverage (ofInteger <$> numberWindow) in
      (mkResponse 200
         (NumbersReport windowPrevState numberWindow numbers (toFixed2 avg)),
       numberWindow)
  | Throw error =>
      (mkResponse 500
         (FailureReport "Failed to process request" (message error)),
       numberWindow)
  end.

(** [app.get("/numbers/:numberid", async (req, res) => ...)], lines
    43-78.  The pair's second component is [numberWindow] when the
    handler replies or suspends. *)
Definition numbersRoute (numberid : string) (numberWindow : list Z)
  : Handler * list Z :=
  if negb (includes ["p"; "f"; "e"; "r"] numberid) then
    (Replied (mkResponse 400
                (ErrorReport "Invalid number ID. Use p, f, e, or r.")),
     numberWindow)
  else
    let windowPrevState := numberWindow in
    (Awaiting (API_ENDPOINTS !!! numberid) 500 (afterFetch windowPrevState),
     numberWindow).

(** One request served with no other request interleaved, against a
    network [upstream] that decides how the fetch of a URL settles.
    The result is the reply, the window afterwards and the URLs that
    were fetched. *)
Definition serve (upstream : string → Z → FetchSettlement)
    (numberid : string) (numberWindow : list Z)
  : HttpResponse * list Z * list string :=
  match numbersRoute numberid numberWindow with
  | (Replied res, numberWindow) => (res, numberWindow, [])
  | (Awaiting url timeoutMs resume, numberWindow) =>
      let '(res, numberWindow) := resume (upstream url timeoutMs) numberWindow in
      (res, numberWindow, [url])
  end.

(** ** Requests in flight together

    Node runs one handler at a time, from a request's arrival or a
    fetch's settlement up to the next [await] or to the reply.  A
    handler of the route is suspended once, on its fetch; while it
    waits, other requests arrive and other fetches settle. *)

(** A handler suspended at line 55. *)
Record Suspended := mkSuspended {
  fetchUrl : string;
  fetchTimeout : Z;
  resumeWith : FetchSettlement → list Z → HttpResponse * list Z
}.

(** The process: the global [numberWindow], the handlers waiting for
    their fetch, and the replies sent so far, oldest first. *)
Record Server := mkServer {
  numberWindow : list Z;
  suspended : list Suspended;
  replies : list HttpResponse
}.

Inductive Event : Type :=
  | Arrives (numberid : string)
  | Settles (i : nat) (settled : FetchSettlement).

(** One turn of the event loop.  [Settles i] resumes the [i]-th
    suspended handler; when there is none the event is not one of this
    process and nothing happens. *)
Definition step (s : Server) (e : Event) : Server :=
  match e with
  | Arrives numberid =>
      match numbersRoute numberid (numberWindow s) with
      | (Replied res, w) => mkServer w (suspended s) (replies s ++ [res])
      | (Awaiting url timeoutMs resume, w) =>
          mkServer w (suspended s ++ [mkSuspended url timeoutMs resume])
            (replies s)
      end
  | Settles i settled =>
      match suspended s !! i with
      | None => s
      | Some h =>
          let '(res, w) := resumeWith h settled (numberWindow s) in
          mkServer w (delete i (suspended s)) (replies s ++ [res])
      end
  end.

(** [let numberWindow = [];] and nothing in flight. *)
Definition initialServer : Server := mkServer [] [] [].

Definition runServer (events : list Event) : Server :=
  fold_left step events initialServer.

(** The windows a reply shows are within capacity. *)
Definition reportsWithin (res : HttpResponse) : Prop :=
  match body res with
  | NumbersReport windowPrevState windowCurrState _ _ =>
      len windowPrevState <= WINDOW_SIZE ∧ len windowCurrState <= WINDOW_SIZE
  | ErrorReport _ | FailureReport _ _ => True
  end.

(** A suspended handler as the route leaves it: waiting for at most
    500 ms on the endpoint of a valid category, with the rest of the
    route as its continuation. *)
Definition suspendedByRoute (h : Suspended) : Prop :=
  ∃ (numberid : string) (windowPrevState : list Z),
    numberid ∈ ["p"; "f"; "e"; "r"]
    ∧ fetchUrl h = API_ENDPOINTS !!! numberid
    ∧ fetchTimeout h = 500
    ∧ resumeWith h = afterFetch windowPrevState
    ∧ len windowPrevState <= WINDOW_SIZE.

(** The events of requests that never overlap: each request for the
    primes is followed at once by the successful settlement of its
    fetch with one of the batches. *)
Definition oneByOne (batches : list (list Z)) : list Event :=
  batches ≫= λ ns,
    [Arrives "p"; Settles 0 (Responded true 200 (JsonData (Some ns)))].

(** ** Array primitives: what [slice] does on the arguments the service uses *)

Section array_facts.
Context {A : Type} `{EqDecision A}.
Implicit Types (arr w ns : list A).

Lemma len_nonneg arr : 0 <= len arr.
Proof. unfold len. lia. Qed.

Lemma len_app arr1 arr2 : len (arr1 ++ arr2) = len arr1 + len arr2.
Proof. unfold len. rewrite length_app. lia. Qed.

Lemma len_zero arr : len arr = 0 ↔ arr = [].
Proof.
  unfold len. destruct arr as [|x arr]; simpl; split; intros H0;
    try done; lia.
Qed.

Lemma includes_true arr x : includes arr x = true ↔ x ∈ arr.
Proof. unfold includes. apply bool_decide_eq_true. Qed.

(** [arr.slice(n)] with [n >= 0] drops the first [n] elements. *)
Lemma slice_from arr n : 0 <= n → slice arr n None = drop (Z.to_nat n) arr.
Proof.
  intros Hn. unfold slice, relativeIndex.
  assert ((n <? 0) = false) as -> by lia.
  destruct (Z.le_gt_cases n (len arr)) as [Hle|Hgt].
  - rewrite Z.min_l by done.
    apply take_ge. rewrite length_drop. unfold len in *. lia.
  - rewrite Z.min_r by lia.
    rewrite !drop_ge by (unfold len in *; lia). by rewrite take_nil.
Qed.

(** [arr.slice(0, n)] with [n >= 0] keeps the first [n] elements. *)
Lemma slice_upto arr n :
  0 <= n → slice arr 0 (Some n) = take (Z.to_nat n) arr.
Proof.
  intros Hn. unfold slice, relativeIndex.
  assert ((n <? 0) = false) as -> by lia.
  pose proof (len_nonneg arr) as Hlen.
  change (0 <? 0) with false. cbv iota.
  rewrite (Z.min_l 0) by done. change (Z.to_nat 0) with 0%nat. rewrite drop_0.
  destruct (Z.le_gt_cases n (len arr)) as [Hle|Hgt].
  - rewrite Z.min_l by done. by rewrite Z.sub_0_r.
  - rewrite Z.min_r by lia. rewrite Z.sub_0_r.
    rewrite !take_ge; [done| |]; unfold len in *; lia.
Qed.

End array_facts.

Example slice_negative_end : slice [1; 2; 3; 4] 0 (Some (-1)) = [1; 2; 3].
Proof. reflexivity. Qed.

(** ** The merge, in closed form *)

Section window_facts.
Context {A : Type} `{EqDecision A}.
Implicit Types (w ns u : list A).

Lemma WINDOW_SIZE_nonneg : 0 <= WINDOW_SIZE.
Proof. unfold WINDOW_SIZE. lia. Qed.

(** The [filter] callback of [updateWindow] selects [fresh]. *)
Lemma unique_fresh w ns :
  filter (λ num, negb (includes w num)) ns = fresh w ns.
Proof.
  unfold fresh. apply list_filter_iff. intros x.
  unfold includes. rewrite negb_True, bool_decide_spec. done.
Qed.

Lemma fresh_elem w ns x : x ∈ fresh w ns ↔ (x ∉ w) ∧ x ∈ ns.
Proof. unfold fresh. by rewrite list_elem_of_filter. Qed.

Lemma fresh_nil w : fresh w [] = [].
Proof. done. Qed.

Lemma fresh_known w ns : (∀ x, x ∈ ns → x ∈ w) → fresh w ns = [].
Proof.
  intros Hin. apply elem_of_nil_inv. intros x Hx.
  apply fresh_elem in Hx as [Hnw Hns]. by apply Hnw, Hin.
Qed.

(** An early return: nothing fresh, nothing changes. *)
Lemma updateWindow_stale w ns : fresh w ns = [] → updateWindow w ns = w.
Proof.
  intros Hu. unfold updateWindow. rewrite unique_fresh, Hu. done.
Qed.

(** Otherwise a suffix of the window followed by a prefix of the fresh
    values, with the counts the two [slice] calls work out. *)
Lemma updateWindow_fresh w ns :
  fresh w ns ≠ [] →
  let evicted :=
    Z.to_nat (len w + len (fresh w ns) - WINDOW_SIZE) in
  updateWindow w ns =
    drop evicted w
      ++ take (Z.to_nat (WINDOW_SIZE - len (drop evicted w))) (fresh w ns).
Proof.
  intros Hu evicted. unfold updateWindow. rewrite unique_fresh.
  set (u := fresh w ns) in *.
  assert ((len u =? 0) = false) as ->.
  { apply Z.eqb_neq. by rewrite len_zero. }
  set (overflow := len w + len u - WINDOW_SIZE) in *.
  pose proof WINDOW_SIZE_nonneg as Hcap.
  destruct (overflow >? 0) eqn:Hov.
  - rewrite slice_from by lia. fold evicted.
    rewrite slice_upto; [done|].
    unfold len in *. rewrite length_drop. lia.
  - assert (evicted = 0%nat) as -> by lia. simpl drop.
    rewrite slice_upto; [done|]. unfold len in *. lia.
Qed.

(** Every property that holds of [[]] and is kept by [updateWindow]
    holds of the window at any time. *)
Lemma windowAfter_ind (P : list A → Prop) :
  P [] → (∀ w ns, P w → P (updateWindow w ns)) →
  ∀ batches, P (windowAfter batches).
Proof.
  intros Hnil Hstep batches. unfold windowAfter.
  generalize (@nil A) Hnil. induction batches as [|ns batches IH];
    intros w Hw; simpl; [done|]. apply IH, Hstep, Hw.
Qed.

Lemma windowAfter_snoc (batches : list (list A)) ns :
  windowAfter (batches ++ [ns]) = updateWindow (windowAfter batches) ns.
Proof. unfold windowAfter. by rewrite fold_left_app. Qed.

Lemma updateWindow_len_max w ns :
  len w <= WINDOW_SIZE → len (updateWindow w ns) <= WINDOW_SIZE.
Proof.
  intros Hw. destruct (decide (fresh w ns = [])) as [Hu|Hu].
  - by rewrite updateWindow_stale.
  - rewrite updateWindow_fresh by done.
    pose proof WINDOW_SIZE_nonneg. unfold len in *.
    rewrite length_app, length_take, length_drop. lia.
Qed.

Lemma windowAfter_len_max (batches : list (list A)) :
  len (windowAfter batches) <= WINDOW_SIZE.
Proof.
  apply (windowAfter_ind (λ w, len w <= WINDOW_SIZE)).
  - apply WINDOW_SIZE_nonneg.
  - intros w ns. apply updateWindow_len_max.
Qed.

(** On a window within capacity the code and the specification's
    wording of the merge agree. *)
Lemma updateWindow_merge_spec w ns :
  len w <= WINDOW_SIZE → updateWindow w ns = merge_spec w ns WINDOW_SIZE.
Proof.
  intros Hw. unfold merge_spec.
  destruct (decide (fresh w ns = [])) as [Hu|Hu].
  - rewrite updateWindow_stale, Hu by done.
    rewrite bool_decide_false by (change (len (@nil A)) with 0; lia).
    by rewrite take_nil, app_nil_r.
  - rewrite updateWindow_fresh by done.
    set (overflow := len w + len (fresh w ns) - WINDOW_SIZE).
    case_bool_decide as Hov; [done|].
    by replace (Z.to_nat overflow) with 0%nat by lia.
Qed.

(** A batch without repetitions keeps the window free of them. *)
Lemma updateWindow_NoDup w ns :
  NoDup w → NoDup ns → NoDup (updateWindow w ns).
Proof.
  intros Hw Hns. destruct (decide (fresh w ns = [])) as [Hu|Hu].
  - by rewrite updateWindow_stale.
  - rewrite updateWindow_fresh by done. apply NoDup_app. split_and!.
    + apply (sublist_NoDup _ w); [done|apply sublist_drop].
    + intros x Hx Hx'.
      eapply elem_of_sublist in Hx; [|apply sublist_drop].
      eapply elem_of_sublist in Hx'; [|apply sublist_take].
      apply fresh_elem in Hx' as [Hnw _]. done.
    + apply (sublist_NoDup _ (fresh w ns)); [|apply sublist_take].
      unfold fresh. by apply NoDup_filter.
Qed.

Lemma windowAfter_NoDup (batches : list (list A)) :
  Forall NoDup batches → NoDup (windowAfter batches).
Proof.
  induction batches as [|ns batches IH] using rev_ind; intros Hall.
  - apply NoDup_nil_2.
  - apply Forall_app in Hall as [Hall Hns].
    rewrite windowAfter_snoc. apply updateWindow_NoDup; [by apply IH|].
    by apply Forall_inv in Hns.
Qed.

End window_facts.

(** ** The window invariants and the merge *)

Section window_claims.
Context {A : Type} `{EqDecision A}.
Implicit Types (w ns : list A).

(** C3.  Whatever batches have been merged since the process started,
    the window holds at most [WINDOW_SIZE] (ten) elements. *)
Theorem window_within_capacity (batches : list (list A)) :
  (length (windowAfter batches) ≤ 10)%nat
  ∧ len (windowAfter batches) <= WINDOW_SIZE.
Proof.
  pose proof (windowAfter_len_max batches) as Hmax.
  unfold len, WINDOW_SIZE in *. lia.
Qed.

(** C4.  Merging the empty batch returns the window as it is, and so
    does merging any batch whose values all occur in the window, the
    window's own contents included, whatever its length. *)
Theorem updateWindow_noop w :
  updateWindow w [] = w
  ∧ updateWindow w w = w
  ∧ ∀ ns, (∀ x, x ∈ ns → x ∈ w) → updateWindow w ns = w.
Proof.
  split_and!.
  - apply updateWindow_stale, fresh_nil.
  - apply updateWindow_stale, fresh_known. done.
  - intros ns Hns. by apply updateWindow_stale, fresh_known.
Qed.

(** C8.  A merge returns what is left of the old window once some
    number of elements has been removed from its front, in the old
    order, followed by the appended elements; these are the first few
    of the batch's values that the old window did not hold. *)
Theorem updateWindow_keeps_order w ns :
  ∃ evicted appended : nat,
    updateWindow w ns = drop evicted w ++ take appended (fresh w ns)
    ∧ drop evicted w `suffix_of` w
    ∧ ∀ x, x ∈ take appended (fresh w ns) → x ∉ w.
Proof.
  destruct (decide (fresh w ns = [])) as [Hu|Hu].
  - exists 0%nat, 0%nat. rewrite updateWindow_stale by done.
    rewrite drop_0, take_0, app_nil_r. split_and!; [done..|].
    intros x Hx. by apply elem_of_nil in Hx.
  - eexists _, _. split_and!.
    + by apply updateWindow_fresh.
    + apply suffix_drop.
    + intros x Hx. eapply elem_of_sublist in Hx; [|apply sublist_take].
      by apply fresh_elem in Hx as [Hnw _].
Qed.

(** C10.  When the window is within capacity, the batch brings at
    least one new value, and old and new values together reach the
    capacity, the merged window is exactly full; when the new values
    alone reach the capacity, nothing of the old window survives and
    the result is the first [WINDOW_SIZE] new values. *)
Theorem updateWindow_fills w ns :
  len w <= WINDOW_SIZE →
  fresh w ns ≠ [] →
  WINDOW_SIZE <= len w + len (fresh w ns) →
  len (updateWindow w ns) = WINDOW_SIZE
  ∧ (WINDOW_SIZE <= len (fresh w ns) →
     updateWindow w ns = take (Z.to_nat WINDOW_SIZE) (fresh w ns)).
Proof.
  intros Hw Hu Hsum. rewrite updateWindow_fresh by done.
  pose proof WINDOW_SIZE_nonneg as Hcap. split.
  - unfold len in *. rewrite length_app, length_take, length_drop. lia.
  - intros Hmany. rewrite drop_ge by (unfold len in *; lia).
    change (len (@nil A)) with 0. by rewrite Z.sub_0_r.
Qed.

End window_claims.

(** C2.  On every window the process can hold, and on every array of
    at most [WINDOW_SIZE] elements, [updateWindow] computes the fresh
    values of the batch, removes [overflow] elements from the front
    when [overflow] is positive, and appends the first [take] fresh
    values, dropping the others; with the capacity of 10 the full
    window [1..10] merged with [11; 12] becomes [3..12]. *)
Theorem updateWindow_follows_merge :
  (∀ (A : Type) (eqA : EqDecision A) (batches : list (list A)) (ns : list A),
     updateWindow (windowAfter batches) ns
     = merge_spec (windowAfter batches) ns WINDOW_SIZE)
  ∧ (∀ (A : Type) (eqA : EqDecision A) (w ns : list A),
       len w <= WINDOW_SIZE → updateWindow w ns = merge_spec w ns WINDOW_SIZE)
  ∧ WINDOW_SIZE = 10
  ∧ updateWindow [1; 2; 3; 4; 5; 6; 7; 8; 9; 10] [11; 12]
    = [3; 4; 5; 6; 7; 8; 9; 10; 11; 12].
Proof.
  split_and!; [| |done..].
  - intros A eqA batches ns.
    apply updateWindow_merge_spec, windowAfter_len_max.
  - intros A eqA w ns. apply updateWindow_merge_spec.
Qed.

(** ** Binary64 arithmetic on integers below [2 ^ 53]

    Rounding leaves such an integer as it is, so additions whose
    operands and result stay below [2 ^ 53] are exact, and so is a
    division that comes out even. *)

Lemma iter_pos_nat {A : Type} (f : A → A) (p : positive) (x : A) :
  SpecFloat.iter_pos f p x = Nat.iter (Pos.to_nat p) f x.
Proof.
  revert x. induction p as [p IH|p IH|]; intros x;
    cbn [SpecFloat.iter_pos]; [| |done].
  - rewrite !IH, Pos2Nat.inj_xI, <- Nat.iter_add, <- Nat.iter_succ_r.
    f_equal. lia.
  - rewrite !IH, Pos2Nat.inj_xO, <- Nat.iter_add. f_equal. lia.
Qed.

Lemma shr_1_even (m : Z) :
  0 < m →
  shr_1 (Build_shr_record (2 * m) false false) = Build_shr_record m false false.
Proof. by destruct m. Qed.

Lemma shr_1_iter (n : nat) (m : Z) :
  0 < m →
  Nat.iter n shr_1 (Build_shr_record (m * 2 ^ Z.of_nat n) false false)
  = Build_shr_record m false false.
Proof.
  revert m. induction n as [|n IH]; intros m Hm.
  - simpl. by rewrite Z.mul_1_r.
  - rewrite Nat.iter_succ.
    replace (m * 2 ^ Z.of_nat (S n)) with ((2 * m) * 2 ^ Z.of_nat n).
    + rewrite IH by lia. by apply shr_1_even.
    + rewrite Nat2Z.inj_succ, Z.pow_succ_r by lia. ring.
Qed.

Lemma shr_exact (m e k : Z) :
  0 < m → 0 <= k →
  shr (Build_shr_record (m * 2 ^ k) false false) e k
  = (Build_shr_record m false false, e + k).
Proof.
  intros Hm Hk. unfold shr. destruct k as [|p|p]; [|  |lia].
  - by rewrite Z.mul_1_r, Z.add_0_r.
  - rewrite iter_pos_nat. rewrite <- (positive_nat_Z p) at 1.
    by rewrite shr_1_iter.
Qed.

Lemma digits2_size (p : positive) : digits2_pos p = Pos.size p.
Proof. induction p; simpl; congruence. Qed.

Lemma Zdigits2_log2 (m : Z) : 0 < m → Zdigits2 m = Z.log2 m + 1.
Proof.
  destruct m as [|p|p]; try lia. intros _. simpl.
  destruct p; simpl; rewrite ?digits2_size; lia.
Qed.

Lemma fexp_small (d : Z) : 0 < d → fexp prec emax d = d - 53.
Proof. intros Hd. unfold fexp, SpecFloat.emin, prec, emax. lia. Qed.

Lemma round_aux_exact (s : bool) (m e N : Z) :
  0 < N < 2 ^ 53 → e <= Z.log2 N - 52 → m = N * 2 ^ (- e) →
  binary_round_aux prec emax s m e loc_Exact = canon s N.
Proof.
  intros [Hpos Hlt] He ->.
  assert (0 <= Z.log2 N < 53) as Hlog.
  { split; [apply Z.log2_nonneg|]. by apply Z.log2_lt_pow2. }
  set (M := N * 2 ^ (52 - Z.log2 N)).
  assert (0 < M) as HM by (unfold M; nia || (apply Z.mul_pos_pos; [lia|apply Z.pow_pos_nonneg; lia])).
  assert (N * 2 ^ (- e) = M * 2 ^ (Z.log2 N - 52 - e)) as Hsplit.
  { unfold M. rewrite <- Z.mul_assoc, <- Z.pow_add_r by lia. do 2 f_equal. lia. }
  assert (Z.log2 M = 52) as HlogM.
  { unfold M. rewrite Z.log2_mul_pow2 by lia. lia. }
  unfold binary_round_aux, shr_fexp.
  rewrite Zdigits2_log2 by (rewrite Hsplit; apply Z.mul_pos_pos; [lia|apply Z.pow_pos_nonneg; lia]).
  rewrite (Z.log2_mul_pow2 N (- e)) by lia.
  replace (- e + Z.log2 N + 1 + e) with (Z.log2 N + 1) by lia.
  rewrite fexp_small by lia.
  replace (Z.log2 N + 1 - 53 - e) with (Z.log2 N - 52 - e) by lia.
  simpl shr_record_of_loc. rewrite Hsplit, shr_exact by lia.
  simpl shr_m. simpl loc_of_shr_record. simpl round_nearest_even.
  rewrite Zdigits2_log2, HlogM by done.
  replace (52 + 1 + (e + (Z.log2 N - 52 - e))) with (Z.log2 N + 1) by lia.
  rewrite fexp_small by lia.
  replace (Z.log2 N + 1 - 53 - (e + (Z.log2 N - 52 - e))) with 0 by lia.
  simpl. destruct M as [|p|p] eqn:HMeq; try lia.
  assert ((e + (Z.log2 N - 52 - e) <=? emax - prec) = true) as ->.
  { apply Z.leb_le. unfold emax, prec. lia. }
  unfold canon. fold M. rewrite HMeq. simpl. f_equal. lia.
Qed.

Lemma iter_xO (p d : positive) :
  Zpos (Pos.iter xO p d) = Zpos p * 2 ^ Zpos d.
Proof.
  induction d as [|d IH] using Pos.peano_ind.
  - simpl. lia.
  - rewrite Pos.iter_succ, Pos2Z.inj_xO, IH, Pos2Z.inj_succ, Z.pow_succ_r by lia.
    ring.
Qed.

Lemma shl_align_value (p : positive) (e e' : Z) :
  e' <= e →
  Zpos (shl_align p e e').1 = Zpos p * 2 ^ (e - e')
  ∧ (shl_align p e e').2 = e'.
Proof.
  intros He. unfold shl_align. destruct (e' - e) as [|d|d] eqn:Hd; try lia.
  - simpl. replace (e - e') with 0 by lia. split; lia.
  - simpl. rewrite iter_xO. split; [|done]. do 2 f_equal. lia.
Qed.

Lemma round_exact (s : bool) (p : positive) (e N : Z) :
  0 < N < 2 ^ 53 → e <= 0 → Zpos p = N * 2 ^ (- e) →
  binary_round prec emax s p e = canon s N.
Proof.
  intros HN He Hp.
  assert (0 <= Z.log2 N < 53) as Hlog.
  { split; [apply Z.log2_nonneg|]. apply Z.log2_lt_pow2; lia. }
  unfold binary_round.
  change (Zpos (digits2_pos p)) with (Zdigits2 (Zpos p)).
  rewrite Zdigits2_log2, Hp, Z.log2_mul_pow2 by lia.
  replace (- e + Z.log2 N + 1 + e) with (Z.log2 N + 1) by lia.
  rewrite fexp_small by lia.
  destruct (Z.le_gt_cases (Z.log2 N + 1 - 53) e) as [Hle|Hgt].
  - destruct (shl_align_value p e (Z.log2 N + 1 - 53) Hle) as [Hm Hez].
    destruct (shl_align p e (Z.log2 N + 1 - 53)) as [mz ez]. simpl in *.
    subst ez. apply round_aux_exact; [done|lia|].
    rewrite Hm, Hp, <- Z.mul_assoc, <- Z.pow_add_r by lia. do 2 f_equal. lia.
  - unfold shl_align.
    destruct (Z.log2 N + 1 - 53 - e) as [|d|d] eqn:Hd; try lia;
      apply round_aux_exact; try done; lia.
Qed.

Lemma Z2SF_0 : Z2SF 0 = S754_zero false.
Proof. done. Qed.

Lemma Z2SF_canon (z : Z) :
  z ≠ 0 → Z.abs z < 2 ^ 53 → Z2SF z = canon (z <? 0) (Z.abs z).
Proof.
  intros Hz Hlt. unfold Z2SF, binary_normalize. destruct z as [|p|p]; [done|..].
  - apply round_exact; [lia|done|]. simpl. lia.
  - apply round_exact; [lia|done|]. simpl. lia.
Qed.

Lemma canon_valid (s : bool) (N : Z) :
  0 < N < 2 ^ 53 → valid_binary (canon s N) = true.
Proof.
  intros HN.
  assert (0 <= Z.log2 N < 53) as Hlog.
  { split; [apply Z.log2_nonneg|]. apply Z.log2_lt_pow2; lia. }
  unfold canon, SpecFloat.valid_binary, bounded, canonical_mantissa.
  set (M := N * 2 ^ (52 - Z.log2 N)).
  assert (0 < M) as HM.
  { unfold M. apply Z.mul_pos_pos; [lia|apply Z.pow_pos_nonneg; lia]. }
  assert (Z.log2 M = 52) as HlogM.
  { unfold M. rewrite Z.log2_mul_pow2 by lia. lia. }
  change (Zpos (digits2_pos (Z.to_pos M))) with (Zdigits2 (Zpos (Z.to_pos M))).
  rewrite Z2Pos.id, Zdigits2_log2, HlogM, fexp_small by lia.
  apply andb_true_intro. split; [apply Z.eqb_eq|apply Z.leb_le]; unfold emax, prec; lia.
Qed.

Lemma Z2SF_valid (z : Z) : Z.abs z < 2 ^ 53 → valid_binary (Z2SF z) = true.
Proof.
  intros Hz. destruct (decide (z = 0)) as [->|Hne]; [done|].
  rewrite Z2SF_canon by done. apply canon_valid. lia.
Qed.

Lemma Prim2SF_ofInteger (z : Z) :
  Z.abs z < 2 ^ 53 → Prim2SF (ofInteger z) = Z2SF z.
Proof. intros Hz. by apply Prim2SF_SF2Prim, Z2SF_valid. Qed.

(** The mantissa of a small integer aligned to a lower exponent. *)
Lemma canon_align (N ez : Z) :
  0 < N < 2 ^ 53 → ez <= Z.log2 N - 52 →
  Zpos (shl_align (Z.to_pos (N * 2 ^ (52 - Z.log2 N))) (Z.log2 N - 52) ez).1
  = N * 2 ^ (- ez).
Proof.
  intros HN Hez.
  assert (0 <= Z.log2 N < 53) as Hlog.
  { split; [apply Z.log2_nonneg|]. apply Z.log2_lt_pow2; lia. }
  destruct (shl_align_value (Z.to_pos (N * 2 ^ (52 - Z.log2 N)))
              (Z.log2 N - 52) ez Hez) as [-> _].
  rewrite Z2Pos.id by (apply Z.mul_pos_pos; [lia|apply Z.pow_pos_nonneg; lia]).
  rewrite <- Z.mul_assoc, <- Z.pow_add_r by lia. do 2 f_equal. lia.
Qed.

Lemma SFadd_Z2SF (a b : Z) :
  Z.abs a < 2 ^ 53 → Z.abs b < 2 ^ 53 → Z.abs (a + b) < 2 ^ 53 →
  SF64add (Z2SF a) (Z2SF b) = Z2SF (a + b).
Proof.
  intros Ha Hb Hab.
  destruct (decide (a = 0)) as [->|Hane].
  { rewrite Z2SF_0, Z.add_0_l. destruct (decide (b = 0)) as [->|Hbne]; [done|].
    rewrite Z2SF_canon by done. reflexivity. }
  destruct (decide (b = 0)) as [->|Hbne].
  { rewrite Z2SF_0, Z.add_0_r. unfold SF64add, SFadd.
    rewrite Z2SF_canon by done. reflexivity. }
  rewrite (Z2SF_canon a), (Z2SF_canon b) by done.
  unfold SF64add, SFadd, canon.
  assert (0 <= Z.log2 (Z.abs a) < 53 ∧ 0 <= Z.log2 (Z.abs b) < 53) as [Hla Hlb].
  { split; (split; [apply Z.log2_nonneg|apply Z.log2_lt_pow2; lia]). }
  cbv zeta.
  set (ez := Z.min (Z.log2 (Z.abs a) - 52) (Z.log2 (Z.abs b) - 52)).
  rewrite !canon_align by (unfold ez; lia).
  assert (cond_Zopp (a <? 0) (Z.abs a * 2 ^ (- ez))
          + cond_Zopp (b <? 0) (Z.abs b * 2 ^ (- ez))
          = (a + b) * 2 ^ (- ez)) as ->.
  { unfold cond_Zopp. destruct (Z.ltb_spec a 0), (Z.ltb_spec b 0); nia. }
  assert (0 < 2 ^ (- ez)) as Hpow by (apply Z.pow_pos_nonneg; unfold ez; lia).
  destruct (decide (a + b = 0)) as [Hzero|Hnz].
  { rewrite Hzero. done. }
  rewrite (Z2SF_canon (a + b)) by done.
  unfold binary_normalize.
  destruct ((a + b) * 2 ^ (- ez)) as [|p|p] eqn:Hp; [nia| |].
  - assert ((a + b <? 0) = false) as -> by (apply Z.ltb_ge; nia).
    apply round_exact; [lia|unfold ez; lia|].
    rewrite Z.abs_eq by nia. lia.
  - assert ((a + b <? 0) = true) as -> by (apply Z.ltb_lt; nia).
    apply round_exact; [lia|unfold ez; lia|].
    rewrite Z.abs_neq by nia. lia.
Qed.

Lemma add_ofInteger (a b : Z) :
  Z.abs a < 2 ^ 53 → Z.abs b < 2 ^ 53 → Z.abs (a + b) < 2 ^ 53 →
  (ofInteger a + ofInteger b)%float = ofInteger (a + b).
Proof.
  intros Ha Hb Hab. apply Prim2SF_inj.
  rewrite add_spec, !Prim2SF_ofInteger by done. by apply SFadd_Z2SF.
Qed.

Lemma magnitude_nonneg (numbers : list Z) : 0 <= magnitude numbers.
Proof. unfold magnitude. induction numbers; csimpl; lia. Qed.

Lemma total_le_magnitude (numbers : list Z) :
  Z.abs (total numbers) <= magnitude numbers.
Proof. unfold magnitude. induction numbers; csimpl; lia. Qed.

Lemma reduce_exact (numbers : list Z) (acc : Z) :
  Z.abs acc + magnitude numbers < 2 ^ 53 →
  fold_left (λ acc num, acc + num)%float (ofInteger <$> numbers) (ofInteger acc)
  = ofInteger (acc + total numbers).
Proof.
  revert acc. induction numbers as [|num rest IH]; intros acc Hacc.
  - simpl. by rewrite Z.add_0_r.
  - pose proof (magnitude_nonneg rest) as Hrest.
    change (magnitude (num :: rest)) with (Z.abs num + magnitude rest) in Hacc.
    simpl. rewrite add_ofInteger by lia. rewrite IH by lia.
    f_equal. lia.
Qed.

Lemma SFdiv_Z2SF (a n : Z) :
  Z.abs a < 2 ^ 53 → 0 < n < 2 ^ 53 → (n | a) →
  SF64div (Z2SF a) (Z2SF n) = Z2SF (a / n).
Proof.
  intros Ha Hn [k ->]. rewrite Z.div_mul by lia.
  rewrite (Z2SF_canon n) by lia.
  assert ((n <? 0) = false) as -> by lia.
  destruct (decide (k = 0)) as [->|Hk]; [rewrite Z.mul_0_l; reflexivity|].
  assert (Z.abs k < 2 ^ 53) as Hkb by nia.
  rewrite (Z2SF_canon (k * n)), (Z2SF_canon k) by nia.
  assert ((k * n <? 0) = (k <? 0)) as ->.
  { destruct (Z.ltb_spec k 0), (Z.ltb_spec (k * n) 0); nia || done. }
  rewrite (Z.abs_eq n), Z.abs_mul, (Z.abs_eq n) by lia.
  set (K := Z.abs k) in *. assert (0 < K) as HK by lia.
  set (S := K * n). assert (0 < S < 2 ^ 53) as HS by (unfold S; nia).
  assert (0 <= Z.log2 S < 53 ∧ 0 <= Z.log2 n < 53 ∧ 0 <= Z.log2 K < 53)
    as (HlS & Hln & HlK).
  { repeat split; try apply Z.log2_nonneg; apply Z.log2_lt_pow2; lia. }
  assert (Z.log2 S - Z.log2 n - 1 <= Z.log2 K) as Hlog.
  { assert (Z.log2 S < Z.log2 n + Z.log2 K + 2); [|lia].
    apply Z.log2_lt_pow2; [lia|].
    replace (Z.log2 n + Z.log2 K + 2) with (Z.succ (Z.log2 K) + Z.succ (Z.log2 n))
      by lia.
    rewrite Z.pow_add_r by lia. unfold S.
    pose proof (Z.log2_spec K HK) as [_ HKlt].
    pose proof (Z.log2_spec n (proj1 Hn)) as [_ Hnlt].
    apply Z.mul_lt_mono_nonneg; lia. }
  unfold SF64div, SFdiv, canon.
  set (mx := S * 2 ^ (52 - Z.log2 S)). set (my := n * 2 ^ (52 - Z.log2 n)).
  assert (0 < mx ∧ 0 < my) as [Hmx Hmy].
  { split; apply Z.mul_pos_pos; try lia; apply Z.pow_pos_nonneg; lia. }
  assert (Z.log2 mx = 52 ∧ Z.log2 my = 52) as [Hlmx Hlmy].
  { unfold mx, my. rewrite !Z.log2_mul_pow2 by lia. lia. }
  unfold SFdiv_core_binary.
  rewrite !Z2Pos.id, !Zdigits2_log2, Hlmx, Hlmy by done.
  replace (52 + 1 + (Z.log2 S - 52) - (52 + 1 + (Z.log2 n - 52)))
    with (Z.log2 S - Z.log2 n) by lia.
  assert (fexp prec emax (Z.log2 S - Z.log2 n) = Z.log2 S - Z.log2 n - 53) as ->.
  { unfold fexp, SpecFloat.emin, prec, emax. lia. }
  rewrite Z.min_l by lia.
  replace (Z.log2 S - 52 - (Z.log2 n - 52) - (Z.log2 S - Z.log2 n - 53))
    with 53 by lia.
  rewrite Z.shiftl_mul_pow2 by lia.
  assert (mx * 2 ^ 53 = (K * 2 ^ (53 - Z.log2 S + Z.log2 n)) * my) as Hquot.
  { assert (2 ^ (52 - Z.log2 S) * 2 ^ 53
            = 2 ^ (53 - Z.log2 S + Z.log2 n) * 2 ^ (52 - Z.log2 n)) as Hpow.
    { rewrite <- !Z.pow_add_r by lia. f_equal. lia. }
    unfold mx, my. fold S.
    transitivity (S * (2 ^ (52 - Z.log2 S) * 2 ^ 53)); [ring|].
    rewrite Hpow. unfold S. ring. }
  pose proof (Z.div_mul (K * 2 ^ (53 - Z.log2 S + Z.log2 n)) my ltac:(lia))
    as Hq.
  pose proof (Z.mod_mul (K * 2 ^ (53 - Z.log2 S + Z.log2 n)) my ltac:(lia))
    as Hr.
  rewrite <- Hquot in Hq, Hr. unfold Z.div in Hq. unfold Z.modulo in Hr.
  destruct (Z.div_eucl (mx * 2 ^ 53) my) as [q r]. subst q r.
  assert (new_location my 0 = loc_Exact) as ->.
  { unfold new_location, new_location_even, new_location_odd.
    by destruct (Z.even my). }
  rewrite xorb_false_r. apply round_aux_exact; [lia|lia|].
  do 2 f_equal. lia.
Qed.

Lemma ofInteger_0 : ofInteger 0 = 0%float.
Proof. reflexivity. Qed.

Lemma div_ofInteger (a n : Z) :
  Z.abs a < 2 ^ 53 → 0 < n < 2 ^ 53 → (n | a) →
  (ofInteger a / ofInteger n)%float = ofInteger (a / n).
Proof.
  intros Ha Hn Hdiv. apply Prim2SF_inj.
  assert (Z.abs (a / n) < 2 ^ 53) as Hq.
  { destruct Hdiv as [k ->]. rewrite Z.div_mul by lia. nia. }
  rewrite div_spec, !Prim2SF_ofInteger by lia. by apply SFdiv_Z2SF.
Qed.

Lemma Qpower_2_opp (k : Z) :
  0 <= k → (inject_Z (2 ^ k) * Qpower 2 (- k) == 1)%Q.
Proof.
  intros Hk. rewrite Qpower_opp, Zpower_Qpower by done.
  apply Qmult_inv_r. change 2%Q with (inject_Z 2).
  rewrite <- Zpower_Qpower by done. intros Hzero.
  assert (0 < 2 ^ k) as Hpos by (apply Z.pow_pos_nonneg; lia).
  unfold Qeq in Hzero. simpl in Hzero. lia.
Qed.

Lemma realValue_ofInteger (z : Z) :
  Z.abs z < 2 ^ 53 → realValue (ofInteger z) = Some (Qred (inject_Z z)).
Proof.
  intros Hz. unfold realValue. rewrite Prim2SF_ofInteger by done.
  destruct (decide (z = 0)) as [->|Hne]; [done|].
  rewrite Z2SF_canon by done. unfold canon. f_equal.
  assert (0 <= Z.log2 (Z.abs z) < 53) as Hlog.
  { split; [apply Z.log2_nonneg|apply Z.log2_lt_pow2; lia]. }
  rewrite Z2Pos.id
    by (apply Z.mul_pos_pos; [lia|apply Z.pow_pos_nonneg; lia]).
  apply Qred_complete.
  replace (Z.log2 (Z.abs z) - 52) with (- (52 - Z.log2 (Z.abs z))) by lia.
  assert (inject_Z (Z.abs z * 2 ^ (52 - Z.log2 (Z.abs z)))
            * Qpower 2 (- (52 - Z.log2 (Z.abs z))) == inject_Z (Z.abs z))%Q
    as Hvalue.
  { rewrite inject_Z_mult, <- Qmult_assoc, Qpower_2_opp by lia. ring. }
  destruct (Z.ltb_spec z 0) as [Hneg|Hpos]; rewrite Hvalue.
  - rewrite Z.abs_neq, inject_Z_opp by lia. ring.
  - by rewrite Z.abs_eq by lia.
Qed.

(** ** The average *)

Lemma len_fmap {A B : Type} (f : A → B) (l : list A) : len (f <$> l) = len l.
Proof. unfold len. by rewrite length_fmap. Qed.

Lemma magnitude_Permutation (numbers numbers' : list Z) :
  numbers ≡ₚ numbers' → magnitude numbers = magnitude numbers'.
Proof. unfold magnitude. induction 1; csimpl; lia. Qed.

Lemma total_Permutation (numbers numbers' : list Z) :
  numbers ≡ₚ numbers' → total numbers = total numbers'.
Proof. induction 1; simpl; lia. Qed.

(** With every partial sum below [2 ^ 53] the [reduce] is exact, and
    the average is one division away from the sum. *)
Lemma calculateAverage_exact (numbers : list Z) :
  numbers ≠ [] → magnitude numbers < 2 ^ 53 →
  calculateAverage (ofInteger <$> numbers)
  = (ofInteger (total numbers) / ofInteger (len numbers))%float.
Proof.
  intros Hne Hmag. unfold calculateAverage. rewrite len_fmap.
  assert ((len numbers =? 0) = false) as ->.
  { apply Z.eqb_neq. by rewrite len_zero. }
  rewrite <- ofInteger_0, reduce_exact by (simpl; lia). done.
Qed.

(** C5, as the code has it.  For a non-empty window of integers whose
    absolute values add up to less than [2 ^ 53] the running sum is
    exact and the average is the binary64 quotient of the sum of the
    elements by their count, that is the arithmetic mean rounded once;
    when the count divides the sum (an array has fewer than [2 ^ 32]
    elements) it is the arithmetic mean itself.
    The average of the empty window is 0, not NaN.  Merging
    [4; 8; 15; 16; 23; 42] into the empty window yields that sequence,
    whose average is 18. *)
Theorem calculateAverage_mean :
  (∀ numbers : list Z,
     numbers ≠ [] → magnitude numbers < 2 ^ 53 →
     calculateAverage (ofInteger <$> numbers)
     = (ofInteger (total numbers) / ofInteger (len numbers))%float
     ∧ ((len numbers | total numbers) → len numbers < 2 ^ 32 →
        calculateAverage (ofInteger <$> numbers)
        = ofInteger (total numbers / len numbers)
        ∧ ∃ mean : Q,
            realValue (calculateAverage (ofInteger <$> numbers)) = Some mean
            ∧ Qeq mean (inject_Z (total numbers) / inject_Z (len numbers))))
  ∧ calculateAverage [] = 0%float
  ∧ updateWindow [] [4; 8; 15; 16; 23; 42] = [4; 8; 15; 16; 23; 42]
  ∧ calculateAverage (ofInteger <$> updateWindow [] [4; 8; 15; 16; 23; 42])
    = 18%float.
Proof.
  split_and!; [|done|done|by vm_compute].
  intros numbers Hne Hmag.
  pose proof (calculateAverage_exact numbers Hne Hmag) as Hexact.
  split; [done|]. intros Hdiv Hlenb.
  pose proof (total_le_magnitude numbers) as Htotal.
  assert (0 < len numbers) as Hlen.
  { pose proof (len_nonneg numbers).
    assert (len numbers ≠ 0) by by rewrite len_zero. lia. }
  assert (Z.abs (total numbers / len numbers) < 2 ^ 53) as Hmean.
  { destruct Hdiv as [k Hk]. rewrite Hk, Z.div_mul by lia. nia. }
  assert (2 ^ 32 < 2 ^ 53) as Hpow by done.
  rewrite Hexact, div_ofInteger by (done || lia). split; [done|].
  exists (Qred (inject_Z (total numbers / len numbers))).
  split; [by apply realValue_ofInteger|]. rewrite Qred_correct.
  destruct Hdiv as [k Hk]. rewrite Hk, Z.div_mul by lia.
  rewrite inject_Z_mult. field. intros Hzero.
  unfold Qeq in Hzero. simpl in Hzero. lia.
Qed.

(** C5 as the specification words it fails: with [2 ^ 53] in the
    window the running sum rounds, and the average of
    [9007199254740992; 1; 1], three exactly representable integers, is
    3002399751580330.5, which is not a third of their sum. *)
Lemma average_rounds_running_sum :
  realValue <$> (ofInteger <$> [9007199254740992; 1; 1])
  = [Some (inject_Z 9007199254740992); Some (inject_Z 1); Some (inject_Z 1)]
  ∧ calculateAverage (ofInteger <$> [9007199254740992; 1; 1])
    = 3002399751580330.5%float
  ∧ realValue (calculateAverage (ofInteger <$> [9007199254740992; 1; 1]))
    = Some (6004799503160661 # 2)
  ∧ ¬ Qeq (6004799503160661 # 2)
        (inject_Z (total [9007199254740992; 1; 1])
         / inject_Z (len [9007199254740992; 1; 1])).
Proof. split_and!; [by vm_compute..|]. by vm_compute. Qed.

(** ** The fetcher and the route *)

Lemma numbersRoute_valid (numberid : string) (w : list Z) :
  numberid ∈ ["p"; "f"; "e"; "r"] →
  numbersRoute numberid w
  = (Awaiting (API_ENDPOINTS !!! numberid) 500 (afterFetch w), w).
Proof.
  intros Hid. unfold numbersRoute.
  by rewrite (proj2 (includes_true _ _) Hid).
Qed.

Lemma numbersRoute_invalid (numberid : string) (w : list Z) :
  numberid ∉ ["p"; "f"; "e"; "r"] →
  numbersRoute numberid w
  = (Replied (mkResponse 400
                (ErrorReport "Invalid number ID. Use p, f, e, or r.")), w).
Proof.
  intros Hid. unfold numbersRoute.
  destruct (includes _ numberid) eqn:Hinc; [|done].
  by apply includes_true in Hinc.
Qed.

Lemma serve_valid upstream (numberid : string) (w : list Z) :
  numberid ∈ ["p"; "f"; "e"; "r"] →
  serve upstream numberid w
  = (afterFetch w (upstream (API_ENDPOINTS !!! numberid) 500) w,
     [API_ENDPOINTS !!! numberid]).
Proof.
  intros Hid. unfold serve. rewrite numbersRoute_valid by done.
  by destruct (afterFetch _ _ _).
Qed.

(** The fetcher returns the empty sequence on a timeout and on a
    successful response without numbers, and in no other case. *)
Lemma fetch_empty_iff (settled : FetchSettlement) :
  fetchNumbersWithTimeout settled = Return []
  ↔ settled = TimerFirst
    ∨ ∃ status numbers,
        settled = Responded true status (JsonData numbers)
        ∧ default [] numbers = [].
Proof.
  split.
  - destruct settled as [|reason|ok st [reason| |numbers]];
      [|done|destruct ok; done..|destruct ok; [|done]]; intros Hempty.
    + by left.
    + right. exists st, numbers. split; [done|]. by injection Hempty.
  - intros [->|(st & numbers & -> & Hempty)]; [done|].
    by destruct numbers as [[|num rest]|].
Qed.

Lemma fetch_failure_throws (settled : FetchSettlement) :
  isFailure settled = true → isTimeout settled = false →
  ∃ err, fetchNumbersWithTimeout settled = Throw err
         ∧ name err ≠ "AbortError".
Proof.
  destruct settled as [|reason|[|] st [reason| |numbers]];
    simpl; try done; intros _ _; eexists; (split; [reflexivity|done]).
Qed.

(** C6, as the code has it.  The fetcher returns the empty sequence when
    the timer fires first, and also when a successful response carries
    no [numbers] or an empty list; among failed requests the timeout is
    the only one that yields it, every other failure, a non-success
    status included, is thrown; after a timeout the route answers 200
    with no numbers and leaves the window and hence its average as they
    were. *)
Theorem fetch_timeout_policy :
  (∀ settled,
     fetchNumbersWithTimeout settled = Return []
     ↔ settled = TimerFirst
       ∨ ∃ status numbers,
           settled = Responded true status (JsonData numbers)
           ∧ default [] numbers = [])
  ∧ (∀ settled, isFailure settled = true →
       (fetchNumbersWithTimeout settled = Return [] ↔ isTimeout settled = true)
       ∧ (isTimeout settled = false →
          ∃ err, fetchNumbersWithTimeout settled = Throw err))
  ∧ (∀ status body,
       fetchNumbersWithTimeout (Responded false status body)
       = Throw (mkError "Error" ("Status: " +:+ pretty status)))
  ∧ (∀ upstream numberid (w : list Z),
       numberid ∈ ["p"; "f"; "e"; "r"] →
       upstream (API_ENDPOINTS !!! numberid) 500 = TimerFirst →
       serve upstream numberid w
       = (mkResponse 200
            (NumbersReport w w []
               (toFixed2 (calculateAverage (ofInteger <$> w)))),
          w, [API_ENDPOINTS !!! numberid])).
Proof.
  split_and!.
  - apply fetch_empty_iff.
  - intros settled Hfail. split.
    + rewrite fetch_empty_iff. split.
      * intros [->|(status & numbers & -> & _)]; [done|]. by simpl in Hfail.
      * destruct settled; try done. by left.
    + intros Hnot. destruct (fetch_failure_throws settled) as (err & Herr & _);
        [done..|]. by exists err.
  - done.
  - intros upstream numberid w Hid Htimer.
    rewrite serve_valid, Htimer by done. done.
Qed.

(** C6 as the specification words it fails: a successful response with
    no [numbers] property yields the empty sequence without a timeout. *)
Lemma fetch_empty_without_timeout :
  fetchNumbersWithTimeout (Responded true 200 (JsonData None)) = Return []
  ∧ isTimeout (Responded true 200 (JsonData None)) = false.
Proof. done. Qed.

(** C7.  When the fetch throws, the route answers 500 with the error's
    message and [numberWindow] is what it was: whatever it holds when
    the handler resumes, and so, for a request served on its own, what
    it held when the request arrived. *)
Theorem failed_fetch_keeps_window
    (upstream : string → Z → FetchSettlement) (numberid : string)
    (w current : list Z) (err : JsError) :
  numberid ∈ ["p"; "f"; "e"; "r"] →
  fetchNumbersWithTimeout (upstream (API_ENDPOINTS !!! numberid) 500)
  = Throw err →
  afterFetch w (upstream (API_ENDPOINTS !!! numberid) 500) current
  = (mkResponse 500
       (FailureReport "Failed to process request" (message err)), current)
  ∧ serve upstream numberid w
    = (mkResponse 500
         (FailureReport "Failed to process request" (message err)),
       w, [API_ENDPOINTS !!! numberid]).
Proof.
  intros Hid Hthrow. rewrite serve_valid by done.
  unfold afterFetch. by rewrite Hthrow.
Qed.

(** C9.  A category other than p, f, e, r is answered 400 with the
    invalid-ID message before the handler reaches its fetch: it replies
    without suspending, no URL is requested, and the window is the one
    it was. *)
Theorem invalid_category_rejected
    (upstream : string → Z → FetchSettlement) (numberid : string)
    (w : list Z) :
  numberid ∉ ["p"; "f"; "e"; "r"] →
  numbersRoute numberid w
  = (Replied (mkResponse 400
                (ErrorReport "Invalid number ID. Use p, f, e, or r.")), w)
  ∧ serve upstream numberid w
    = (mkResponse 400 (ErrorReport "Invalid number ID. Use p, f, e, or r."),
       w, []).
Proof.
  intros Hid. unfold serve. by rewrite numbersRoute_invalid.
Qed.

(** C1 does not hold of the code.  [updateWindow] removes from a batch
    the values the window already holds but not the repetitions inside
    the batch: when the Fibonacci service answers 1, 1, 2, 3, 5 to the
    first request, both 1s enter the window. *)
Theorem batch_duplicates_enter_window :
  serve (λ _ _, Responded true 200 (JsonData (Some [1; 1; 2; 3; 5]))) "f" []
  = (mkResponse 200
       (NumbersReport [] [1; 1; 2; 3; 5] [1; 1; 2; 3; 5] (12 / 5)%float),
     [1; 1; 2; 3; 5], ["http://20.244.56.144/evaluation-service/fibo"])
  ∧ windowAfter [[1; 1; 2; 3; 5]] = [1; 1; 2; 3; 5]
  ∧ ¬ NoDup (windowAfter [[1; 1; 2; 3; 5]]).
Proof.
  split_and!; [by vm_compute|done|].
  intros Hdup. apply NoDup_cons in Hdup as [Hnotin _].
  apply Hnotin. by left.
Qed.

(** ** The theorems at concrete requests *)

Lemma updateWindow_follows_merge_witness :
  len [1; 2; 3] <= WINDOW_SIZE
  ∧ updateWindow [1; 2; 3] [3; 4] = merge_spec [1; 2; 3] [3; 4] WINDOW_SIZE.
Proof.
  split; [by vm_compute|].
  apply (proj1 (proj2 updateWindow_follows_merge) Z _ [1; 2; 3] [3; 4]).
  by vm_compute.
Defined.

Lemma updateWindow_noop_witness :
  (∀ x : Z, x ∈ [3; 1; 1] → x ∈ [1; 2; 3])
  ∧ updateWindow [1; 2; 3] [3; 1; 1] = [1; 2; 3].
Proof.
  assert (∀ x : Z, x ∈ [3; 1; 1] → x ∈ [1; 2; 3]) as Hknown.
  { intros x Hx. rewrite !elem_of_cons in Hx. rewrite !elem_of_cons. tauto. }
  split; [exact Hknown|].
  apply (proj2 (proj2 (updateWindow_noop [1; 2; 3])) [3; 1; 1] Hknown).
Defined.

Lemma updateWindow_fills_witness :
  len (updateWindow [1; 2] [11; 12; 13; 14; 15; 16; 17; 18; 19; 20; 21; 22])
  = WINDOW_SIZE
  ∧ updateWindow [1; 2] [11; 12; 13; 14; 15; 16; 17; 18; 19; 20; 21; 22]
    = [11; 12; 13; 14; 15; 16; 17; 18; 19; 20].
Proof.
  destruct (updateWindow_fills [1; 2]
              [11; 12; 13; 14; 15; 16; 17; 18; 19; 20; 21; 22])
    as [Hfull Hnew]; [by vm_compute..|].
  split; [exact Hfull|]. rewrite Hnew; [reflexivity|by vm_compute].
Defined.

Lemma calculateAverage_mean_witness :
  calculateAverage (ofInteger <$> [2; 4; 9]) = (15 / 3)%float
  ∧ calculateAverage (ofInteger <$> [2; 4; 9]) = 5%float.
Proof.
  destruct calculateAverage_mean as [Hmean _].
  destruct (Hmean [2; 4; 9]) as [Hquotient Hexact]; [done|by vm_compute|].
  split; [exact Hquotient|].
  destruct Hexact as [Hfive _]; [by exists 5|by vm_compute|exact Hfive].
Defined.

Lemma fetch_timeout_policy_witness :
  (∃ err, fetchNumbersWithTimeout (Responded false 503 JsonNull) = Throw err)
  ∧ serve (λ _ _, TimerFirst) "e" [2; 4; 6]
    = (mkResponse 200 (NumbersReport [2; 4; 6] [2; 4; 6] [] 4%float),
       [2; 4; 6], ["http://20.244.56.144/evaluation-service/even"]).
Proof.
  destruct fetch_timeout_policy as (_ & Hfail & _ & Htimer). split.
  - apply (Hfail (Responded false 503 JsonNull)); reflexivity.
  - rewrite (Htimer (λ _ _, TimerFirst) "e" [2; 4; 6]);
      [by vm_compute|compute_done|reflexivity].
Defined.

Lemma failed_fetch_keeps_window_witness :
  serve (λ _ _, NetworkError "connect ECONNREFUSED") "r" [7; 9]
  = (mkResponse 500
       (FailureReport "Failed to process request" "connect ECONNREFUSED"),
     [7; 9], ["http://20.244.56.144/evaluation-service/rand"]).
Proof.
  destruct (failed_fetch_keeps_window
              (λ _ _, NetworkError "connect ECONNREFUSED") "r" [7; 9] [7; 9]
              (mkError "FetchError" "connect ECONNREFUSED"))
    as [_ Hserve]; [compute_done|reflexivity|].
  rewrite Hserve. by vm_compute.
Defined.

Lemma invalid_category_rejected_witness :
  serve (λ _ _, Responded true 200 (JsonData (Some [1; 2]))) "x" [5]
  = (mkResponse 400 (ErrorReport "Invalid number ID. Use p, f, e, or r."),
     [5], []).
Proof.
  apply (invalid_category_rejected
           (λ _ _, Responded true 200 (JsonData (Some [1; 2]))) "x" [5]).
  compute_done.
Defined.

(** ** More on the merge: sizes, contents, repetition *)

Section window_more.
Context {A : Type} `{EqDecision A}.
Implicit Types (w ns : list A).

Lemma fresh_sublist w ns : fresh w ns `sublist_of` ns.
Proof. unfold fresh. apply sublist_filter. Qed.

(** With room for every fresh value nothing is evicted. *)
Lemma updateWindow_fit w ns :
  len w + len (fresh w ns) <= WINDOW_SIZE →
  updateWindow w ns = w ++ fresh w ns.
Proof.
  intros Hfit. destruct (decide (fresh w ns = [])) as [Hu|Hu].
  - rewrite updateWindow_stale, Hu by done. by rewrite app_nil_r.
  - rewrite updateWindow_fresh by done.
    replace (Z.to_nat (len w + len (fresh w ns) - WINDOW_SIZE))
      with 0%nat by lia.
    rewrite drop_0, take_ge; [done|]. unfold len in *. lia.
Qed.

Lemma updateWindow_len w ns :
  len w <= WINDOW_SIZE →
  len (updateWindow w ns) = Z.min (len w + len (fresh w ns)) WINDOW_SIZE.
Proof.
  intros Hw. destruct (decide (fresh w ns = [])) as [Hu|Hu].
  - rewrite updateWindow_stale, Hu by done.
    change (len (@nil A)) with 0. lia.
  - rewrite updateWindow_fresh by done.
    pose proof WINDOW_SIZE_nonneg. unfold len in *.
    rewrite length_app, length_take, length_drop. lia.
Qed.

(** X1.  A merge invents nothing: every element of the merged window
    was in the old window, or is a value of the batch that the old
    window did not hold. *)
Theorem updateWindow_elements w ns x :
  x ∈ updateWindow w ns → x ∈ w ∨ (x ∈ ns ∧ x ∉ w).
Proof.
  destruct (decide (fresh w ns = [])) as [Hu|Hu].
  - rewrite updateWindow_stale by done. by left.
  - rewrite updateWindow_fresh by done. intros [Hold|Hnew]%elem_of_app.
    + left. eapply elem_of_sublist; [done|apply sublist_drop].
    + right. eapply elem_of_sublist in Hnew; [|apply sublist_take].
      apply fresh_elem in Hnew. tauto.
Qed.

(** X2.  On a window within capacity the merged window has
    [min (old length + number of fresh values, WINDOW_SIZE)]
    elements. *)
Theorem updateWindow_length w ns :
  len w <= WINDOW_SIZE →
  len (updateWindow w ns) = Z.min (len w + len (fresh w ns)) WINDOW_SIZE
  ∧ (length (updateWindow w ns)
     = (length w + length (fresh w ns)) `min` 10)%nat.
Proof.
  intros Hw. pose proof (updateWindow_len w ns Hw) as Hlen.
  split; [done|]. unfold len, WINDOW_SIZE in *. lia.
Qed.

(** X3.  The window never gets shorter: after any further batches it
    has at least as many elements as before, so that once it is full
    it stays full. *)
Theorem window_never_shrinks (batches later : list (list A)) :
  len (windowAfter batches) <= len (windowAfter (batches ++ later))
  ∧ (len (windowAfter batches) = WINDOW_SIZE →
     len (windowAfter (batches ++ later)) = WINDOW_SIZE).
Proof.
  assert (len (windowAfter batches) <= len (windowAfter (batches ++ later)))
    as Hmono.
  { induction later as [|ns later IH] using rev_ind.
    - by rewrite app_nil_r.
    - rewrite app_assoc, windowAfter_snoc.
      pose proof (windowAfter_len_max (batches ++ later)) as Hmax.
      rewrite (updateWindow_len _ ns Hmax).
      pose proof (len_nonneg (fresh (windowAfter (batches ++ later)) ns)).
      lia. }
  split; [done|]. intros Hfull.
  pose proof (windowAfter_len_max (batches ++ later)). lia.
Qed.

(** X4.  When the window is within capacity and the batch brings at
    most [WINDOW_SIZE] fresh values, all of them are appended, after
    the eviction of as many of the oldest elements as the total exceeds
    the capacity by; every fresh value is then in the window. *)
Theorem updateWindow_appends_all w ns :
  len w <= WINDOW_SIZE →
  len (fresh w ns) <= WINDOW_SIZE →
  updateWindow w ns
  = drop (Z.to_nat (len w + len (fresh w ns) - WINDOW_SIZE)) w ++ fresh w ns
  ∧ ∀ x, x ∈ ns → x ∉ w → x ∈ updateWindow w ns.
Proof.
  intros Hw Hu.
  assert (updateWindow w ns
          = drop (Z.to_nat (len w + len (fresh w ns) - WINDOW_SIZE)) w
              ++ fresh w ns) as Heq.
  { destruct (decide (fresh w ns = [])) as [Hnil|Hnil].
    - rewrite updateWindow_stale, Hnil by done.
      change (len (@nil A)) with 0.
      replace (Z.to_nat (len w + 0 - WINDOW_SIZE)) with 0%nat by lia.
      by rewrite drop_0, app_nil_r.
    - rewrite updateWindow_fresh by done. f_equal.
      apply take_ge. unfold len in *. rewrite length_drop. lia. }
  split; [done|]. intros x Hx Hnw. rewrite Heq.
  apply elem_of_app. right. by apply fresh_elem.
Qed.

(** X5.  When old and fresh values together fit in the capacity, the
    merge is a plain append, every value of the batch is in the window
    afterwards, and merging the same batch once more changes nothing. *)
Theorem updateWindow_again w ns :
  len w + len (fresh w ns) <= WINDOW_SIZE →
  updateWindow w ns = w ++ fresh w ns
  ∧ (∀ x, x ∈ ns → x ∈ updateWindow w ns)
  ∧ updateWindow (updateWindow w ns) ns = updateWindow w ns.
Proof.
  intros Hfit. rewrite updateWindow_fit by done.
  assert (∀ x, x ∈ ns → x ∈ w ++ fresh w ns) as Hall.
  { intros x Hx. apply elem_of_app.
    destruct (decide (x ∈ w)) as [Hin|Hout]; [by left|].
    right. by apply fresh_elem. }
  split_and!; [done..|].
  by apply updateWindow_stale, fresh_known.
Qed.

(** X6.  As long as no fetched batch repeats a value within itself,
    the window holds no value twice. *)
Theorem window_distinct_for_distinct_batches (batches : list (list A)) :
  Forall NoDup batches → NoDup (windowAfter batches).
Proof. apply windowAfter_NoDup. Qed.

(** X7.  Whatever the length of the array it starts from, a merge that
    brings at least one fresh value ends within capacity, and the count
    it passes to the second [slice] is not negative. *)
Theorem updateWindow_heals w ns :
  fresh w ns ≠ [] →
  len (updateWindow w ns) <= WINDOW_SIZE
  ∧ let unique := filter (λ num, negb (includes w num)) ns in
    let overflow := len w + len unique - WINDOW_SIZE in
    0 <= WINDOW_SIZE
         - len (if overflow >? 0 then slice w overflow None else w).
Proof.
  intros Hu. split.
  - rewrite updateWindow_fresh by done.
    pose proof WINDOW_SIZE_nonneg. unfold len in *.
    rewrite length_app, length_take, length_drop. lia.
  - cbv zeta. rewrite unique_fresh.
    assert (0 < len (fresh w ns)) as Hpos.
    { pose proof (len_nonneg (fresh w ns)).
      assert (len (fresh w ns) ≠ 0) by by rewrite len_zero. lia. }
    destruct (_ >? 0) eqn:Hov; [|lia].
    rewrite slice_from by lia. pose proof WINDOW_SIZE_nonneg.
    unfold len in *. rewrite length_drop. lia.
Qed.

End window_more.

(** ** More on the average *)

(** X9.  For a window of integers whose absolute values add up to less
    than [2 ^ 53], the average does not depend on the order of the
    elements. *)
Theorem calculateAverage_Permutation (numbers numbers' : list Z) :
  numbers ≡ₚ numbers' → magnitude numbers < 2 ^ 53 →
  calculateAverage (ofInteger <$> numbers)
  = calculateAverage (ofInteger <$> numbers').
Proof.
  intros Hperm Hmag. destruct (decide (numbers = [])) as [->|Hne].
  - by apply Permutation_nil_l in Hperm as ->.
  - assert (numbers' ≠ []) as Hne'.
    { intros ->. by apply Permutation_nil_r in Hperm. }
    rewrite !calculateAverage_exact;
      rewrite <- ?(magnitude_Permutation _ _ Hperm); try done.
    rewrite (total_Permutation _ _ Hperm). unfold len.
    by rewrite (Permutation_length Hperm).
Qed.

(** ** More on the fetcher *)

(** X11.  The fetcher throws only for a failed request that is not a
    timeout, and what it throws is never the abort error. *)
Theorem fetch_throws_only_failures (settled : FetchSettlement) (err : JsError) :
  fetchNumbersWithTimeout settled = Throw err →
  isFailure settled = true ∧ isTimeout settled = false
  ∧ name err ≠ "AbortError".
Proof.
  destruct settled as [|reason|[|] st [reason| |numbers]];
    simpl; try done; intros [= <-]; done.
Qed.

(** X12.  A non-empty sequence is returned exactly for a successful
    response whose [numbers] is that sequence. *)
Theorem fetch_returns_response_numbers
    (settled : FetchSettlement) (ns : list Z) :
  ns ≠ [] →
  fetchNumbersWithTimeout settled = Return ns
  ↔ ∃ st, settled = Responded true st (JsonData (Some ns)).
Proof.
  intros Hne. split.
  - destruct settled as [|reason|[|] st [reason| |[numbers|]]];
      simpl; try done; intros [= <-]; try done. by exists st.
  - by intros [st ->].
Qed.

(** X13.  The error thrown for a non-success status tells the status:
    two such responses throw the same error exactly when their statuses
    are equal, whatever their bodies. *)
Theorem status_error_tells_status (st1 st2 : Z) (body1 body2 : JsonBody) :
  fetchNumbersWithTimeout (Responded false st1 body1)
  = fetchNumbersWithTimeout (Responded false st2 body2)
  ↔ st1 = st2.
Proof.
  split; [|by intros ->]. simpl. intros [= Hpretty].
  change (pretty st1 = pretty st2) in Hpretty.
  by apply (inj pretty) in Hpretty.
Qed.

(** ** More on the route *)

(** X14.  The guard of line 47 admits exactly the keys of
    [API_ENDPOINTS], so the lookup of line 55 never misses, and the
    four categories have four different URLs. *)
Theorem endpoints_match_guard (numberid : string) :
  (is_Some (API_ENDPOINTS !! numberid) ↔ numberid ∈ ["p"; "f"; "e"; "r"])
  ∧ (∀ other : string,
       numberid ∈ ["p"; "f"; "e"; "r"] → other ∈ ["p"; "f"; "e"; "r"] →
       API_ENDPOINTS !!! numberid = API_ENDPOINTS !!! other →
       numberid = other).
Proof.
  split.
  - unfold API_ENDPOINTS.
    rewrite !lookup_insert_is_Some, lookup_empty, !elem_of_cons, elem_of_nil.
    split.
    + intros [->|[_ [->|[_ [->|[_ [->|[_ Hnone]]]]]]]]; try tauto.
      by destruct Hnone.
    + destruct (decide ("p" = numberid)); [tauto|].
      destruct (decide ("f" = numberid)); [tauto|].
      destruct (decide ("e" = numberid)); [tauto|].
      destruct (decide ("r" = numberid)); [tauto|].
      intros [->|[->|[->|[->|[]]]]]; done.
  - intros other Hid Hother.
    rewrite !elem_of_cons, elem_of_nil in Hid, Hother.
    destruct Hid as [->|[->|[->|[->|[]]]]];
      destruct Hother as [->|[->|[->|[->|[]]]]];
      vm_compute; congruence.
Qed.

(** X15.  A request served on its own is answered 200, 400 or 500; the
    window changes only with a 200; and a 200 reply shows the window as
    it was on arrival, the fetched numbers, and the merge of the two,
    which is the window now stored. *)
Theorem serve_reply
    (upstream : string → Z → FetchSettlement) (numberid : string)
    (w : list Z) :
  status (serve upstream numberid w).1.1 ∈ [200; 400; 500]
  ∧ (status (serve upstream numberid w).1.1 ≠ 200 →
     (serve upstream numberid w).1.2 = w)
  ∧ (∀ windowPrevState windowCurrState numbers avg,
       body (serve upstream numberid w).1.1
       = NumbersReport windowPrevState windowCurrState numbers avg →
       status (serve upstream numberid w).1.1 = 200
       ∧ windowPrevState = w
       ∧ fetchNumbersWithTimeout (upstream (API_ENDPOINTS !!! numberid) 500)
         = Return numbers
       ∧ windowCurrState = updateWindow w numbers
       ∧ (serve upstream numberid w).1.2 = windowCurrState
       ∧ avg = toFixed2 (calculateAverage (ofInteger <$> windowCurrState))).
Proof.
  destruct (decide (numberid ∈ ["p"; "f"; "e"; "r"])) as [Hid|Hid].
  - rewrite serve_valid by done. unfold afterFetch.
    destruct (fetchNumbersWithTimeout _) as [numbers|err]; simpl.
    + split_and!; [compute_done|done|].
      by intros prev curr ns avg [= <- <- <- <-].
    + split_and!; [compute_done|done..].
  - unfold serve. rewrite numbersRoute_invalid by done. simpl.
    split_and!; [compute_done|done..].
Qed.

(** ** Requests in flight together: what every schedule keeps *)

Lemma runServer_snoc (events : list Event) (e : Event) :
  runServer (events ++ [e]) = step (runServer events) e.
Proof. unfold runServer. by rewrite fold_left_app. Qed.

Lemma runServer_ind (P : Server → Prop) :
  P initialServer → (∀ s e, P s → P (step s e)) →
  ∀ events, P (runServer events).
Proof.
  intros Hinit Hstep events.
  induction events as [|e events IH] using rev_ind; [done|].
  rewrite runServer_snoc. by apply Hstep.
Qed.

(** What holds of the process between two turns of the event loop. *)
Lemma step_keeps (s : Server) (e : Event) :
  (∃ batches, numberWindow s = windowAfter batches)
  ∧ Forall suspendedByRoute (suspended s)
  ∧ Forall (λ res, status res ∈ [200; 400; 500] ∧ reportsWithin res)
      (replies s) →
  (∃ batches, numberWindow (step s e) = windowAfter batches)
  ∧ Forall suspendedByRoute (suspended (step s e))
  ∧ Forall (λ res, status res ∈ [200; 400; 500] ∧ reportsWithin res)
      (replies (step s e)).
Proof.
  intros ([batches Hw] & Hsusp & Hrep).
  destruct e as [numberid|i settled]; simpl.
  - destruct (decide (numberid ∈ ["p"; "f"; "e"; "r"])) as [Hid|Hid].
    + rewrite numbersRoute_valid by done. simpl.
      split_and!; [by exists batches| |done].
      apply Forall_app. split; [done|]. apply Forall_singleton.
      exists numberid, (numberWindow s). split_and!; try done.
      rewrite Hw. apply windowAfter_len_max.
    + rewrite numbersRoute_invalid by done. simpl.
      split_and!; [by exists batches|done|].
      apply Forall_app. split; [done|]. apply Forall_singleton.
      split; [compute_done|done].
  - destruct (suspended s !! i) as [h|] eqn:Hi; [|by eauto].
    pose proof (Forall_lookup_1 _ _ _ _ Hsusp Hi)
      as (numberid & prev & _ & _ & _ & Hresume & Hprev).
    rewrite Hresume. unfold afterFetch.
    destruct (fetchNumbersWithTimeout settled) as [numbers|err]; simpl.
    + split_and!.
      * exists (batches ++ [numbers]). by rewrite windowAfter_snoc, Hw.
      * by apply Forall_delete.
      * apply Forall_app. split; [done|]. apply Forall_singleton.
        split; [compute_done|]. split; [done|].
        rewrite Hw, <- windowAfter_snoc. apply windowAfter_len_max.
    + split_and!; [by exists batches|by apply Forall_delete|].
      apply Forall_app. split; [done|]. apply Forall_singleton.
      split; [compute_done|done].
Qed.

Lemma runServer_keeps (events : list Event) :
  (∃ batches, numberWindow (runServer events) = windowAfter batches)
  ∧ Forall suspendedByRoute (suspended (runServer events))
  ∧ Forall (λ res, status res ∈ [200; 400; 500] ∧ reportsWithin res)
      (replies (runServer events)).
Proof.
  apply (runServer_ind (λ s,
    (∃ batches, numberWindow s = windowAfter batches)
    ∧ Forall suspendedByRoute (suspended s)
    ∧ Forall (λ res, status res ∈ [200; 400; 500] ∧ reportsWithin res)
        (replies s))); [|apply step_keeps].
  split_and!; [by exists []|done..].
Qed.

(** X16.  However requests and settlements interleave, the window the
    process holds is one that merging some batches one after another
    produces, and so has at most [WINDOW_SIZE] elements. *)
Theorem runServer_window (events : list Event) :
  (∃ batches, numberWindow (runServer events) = windowAfter batches)
  ∧ len (numberWindow (runServer events)) <= WINDOW_SIZE.
Proof.
  destruct (runServer_keeps events) as ([batches Hw] & _ & _).
  split; [by exists batches|]. rewrite Hw. apply windowAfter_len_max.
Qed.

(** X17.  Every reply the process ever sends is a 200, a 400 or a 500,
    and the two windows a 200 reply shows are within capacity. *)
Theorem runServer_replies (events : list Event) (res : HttpResponse) :
  res ∈ replies (runServer events) →
  status res ∈ [200; 400; 500] ∧ reportsWithin res.
Proof.
  intros Hres. destruct (runServer_keeps events) as (_ & _ & Hrep).
  by apply (proj1 (Forall_forall _ _) Hrep).
Qed.

(** X18.  Every handler waiting for its fetch waits on the endpoint of
    one of the four categories, for at most 500 ms. *)
Theorem runServer_suspended (events : list Event) (h : Suspended) :
  h ∈ suspended (runServer events) →
  fetchTimeout h = 500
  ∧ ∃ numberid, numberid ∈ ["p"; "f"; "e"; "r"]
                ∧ API_ENDPOINTS !! numberid = Some (fetchUrl h).
Proof.
  intros Hh. destruct (runServer_keeps events) as (_ & Hsusp & _).
  apply (proj1 (Forall_forall _ _) Hsusp) in Hh
    as (numberid & prev & Hid & Hurl & Htime & _).
  split; [done|]. exists numberid. split; [done|].
  rewrite Hurl. clear Hurl.
  rewrite !elem_of_cons, elem_of_nil in Hid.
  by destruct Hid as [->|[->|[->|[->|[]]]]].
Qed.

(** X20.  Every window that merging batches produces is reached by the
    process: by as many requests served one by one, each fetch
    returning one of the batches. *)
Theorem runServer_reaches (batches : list (list Z)) :
  numberWindow (runServer (oneByOne batches)) = windowAfter batches
  ∧ suspended (runServer (oneByOne batches)) = [].
Proof.
  induction batches as [|ns batches [IHw IHs]] using rev_ind; [done|].
  unfold oneByOne in *. rewrite bind_app. simpl.
  rewrite cons_middle, app_assoc, !runServer_snoc, windowAfter_snoc.
  set (s := runServer _) in *.
  assert (step s (Arrives "p")
          = mkServer (numberWindow s)
              [mkSuspended (API_ENDPOINTS !!! "p") 500
                 (afterFetch (numberWindow s))]
              (replies s)) as ->.
  { cbn [step]. rewrite numbersRoute_valid by compute_done.
    by rewrite IHs. }
  simpl. unfold afterFetch. simpl. by rewrite IHw.
Qed.

(** ** The further theorems at concrete inputs *)

Lemma updateWindow_elements_witness :
  11 ∈ updateWindow [1; 2; 3; 4; 5; 6; 7; 8; 9; 10] [3; 11]
  ∧ 11 ∈ [3; 11] ∧ 11 ∉ [1; 2; 3; 4; 5; 6; 7; 8; 9; 10].
Proof.
  assert (11 ∈ updateWindow [1; 2; 3; 4; 5; 6; 7; 8; 9; 10] [3; 11]) as Hin
    by compute_done.
  split; [exact Hin|].
  destruct (updateWindow_elements _ _ _ Hin) as [Hold|Hnew]; [|exact Hnew].
  exfalso. revert Hold. compute_done.
Defined.

Lemma updateWindow_length_witness :
  len (updateWindow [1; 2; 3; 4; 5; 6; 7; 8] [8; 9; 10; 11; 12])
  = Z.min (8 + 4) WINDOW_SIZE.
Proof.
  destruct (updateWindow_length [1; 2; 3; 4; 5; 6; 7; 8] [8; 9; 10; 11; 12])
    as [Hlen _]; [by vm_compute|exact Hlen].
Defined.

Lemma window_never_shrinks_witness :
  len (windowAfter [[1; 2; 3; 4; 5]; [6; 7; 8; 9; 10]; [11]; [5; 12; 13]])
  = WINDOW_SIZE.
Proof.
  apply (proj2 (window_never_shrinks [[1; 2; 3; 4; 5]; [6; 7; 8; 9; 10]]
                  [[11]; [5; 12; 13]])).
  reflexivity.
Defined.

Lemma updateWindow_appends_all_witness :
  updateWindow [1; 2; 3; 4; 5; 6; 7; 8] [8; 9; 10; 11; 12]
  = drop 2 [1; 2; 3; 4; 5; 6; 7; 8] ++ [9; 10; 11; 12].
Proof.
  destruct (updateWindow_appends_all [1; 2; 3; 4; 5; 6; 7; 8]
              [8; 9; 10; 11; 12]) as [Heq _]; [by vm_compute..|exact Heq].
Defined.

Lemma updateWindow_again_witness :
  updateWindow (updateWindow [1; 2; 3] [3; 4; 4; 5]) [3; 4; 4; 5]
  = updateWindow [1; 2; 3] [3; 4; 4; 5].
Proof.
  destruct (updateWindow_again [1; 2; 3] [3; 4; 4; 5]) as (_ & _ & Hagain);
    [by vm_compute|exact Hagain].
Defined.

Lemma window_distinct_for_distinct_batches_witness :
  NoDup (windowAfter [[2; 3; 5; 7]; [1; 2; 3; 5; 8]; [2; 4; 6; 8; 10; 12]]).
Proof.
  apply window_distinct_for_distinct_batches.
  repeat constructor; compute_done.
Defined.

Lemma updateWindow_heals_witness :
  len (updateWindow [1; 2; 3; 4; 5; 6; 7; 8; 9; 10; 11; 12] [13])
  <= WINDOW_SIZE.
Proof.
  destruct (updateWindow_heals [1; 2; 3; 4; 5; 6; 7; 8; 9; 10; 11; 12] [13])
    as [Hlen _]; [done|exact Hlen].
Defined.

Lemma calculateAverage_Permutation_witness :
  calculateAverage (ofInteger <$> [3; 1; 2])
  = calculateAverage (ofInteger <$> [1; 2; 3]).
Proof.
  apply (calculateAverage_Permutation [3; 1; 2] [1; 2; 3]); [|by vm_compute].
  apply (perm_trans (l' := [1; 3; 2])).
  - apply perm_swap.
  - apply perm_skip, perm_swap.
Defined.

Lemma fetch_throws_only_failures_witness :
  isFailure (Responded true 200 (InvalidJson "Unexpected token <")) = true
  ∧ isTimeout (Responded true 200 (InvalidJson "Unexpected token <")) = false
  ∧ "SyntaxError" ≠ "AbortError".
Proof.
  apply (fetch_throws_only_failures
           (Responded true 200 (InvalidJson "Unexpected token <"))
           (mkError "SyntaxError" "Unexpected token <")).
  reflexivity.
Defined.

Lemma fetch_returns_response_numbers_witness :
  fetchNumbersWithTimeout (Responded true 200 (JsonData (Some [2; 4; 6])))
  = Return [2; 4; 6].
Proof.
  apply (fetch_returns_response_numbers
           (Responded true 200 (JsonData (Some [2; 4; 6]))) [2; 4; 6]);
    [done|]. by exists 200.
Defined.

Lemma endpoints_match_guard_witness :
  is_Some (API_ENDPOINTS !! "e") ∧ ("e" = "r" → False).
Proof.
  split.
  - apply (proj1 (endpoints_match_guard "e")). compute_done.
  - intros Heq. discriminate Heq.
Defined.

Lemma serve_reply_witness :
  status (serve (λ _ _, NetworkError "socket hang up") "p" [2; 3]).1.1 ≠ 200
  ∧ (serve (λ _ _, NetworkError "socket hang up") "p" [2; 3]).1.2 = [2; 3].
Proof.
  assert (status (serve (λ _ _, NetworkError "socket hang up") "p"
                    [2; 3]).1.1 ≠ 200) as Hstatus by (by vm_compute).
  split; [exact Hstatus|].
  exact (proj1 (proj2 (serve_reply (λ _ _, NetworkError "socket hang up")
                         "p" [2; 3])) Hstatus).
Defined.

Lemma runServer_replies_witness :
  status (mkResponse 200 (NumbersReport [] [2; 4; 3; 5] [2; 3; 5] 3.5%float))
    ∈ [200; 400; 500]
  ∧ reportsWithin
      (mkResponse 200 (NumbersReport [] [2; 4; 3; 5] [2; 3; 5] 3.5%float)).
Proof.
  apply (runServer_replies
           [Arrives "p"; Arrives "e";
            Settles 1 (Responded true 200 (JsonData (Some [2; 4])));
            Settles 0 (Responded true 200 (JsonData (Some [2; 3; 5])))]).
  vm_compute. apply list_elem_of_In. right. left. reflexivity.
Defined.

Lemma runServer_suspended_witness :
  fetchTimeout (mkSuspended "http://20.244.56.144/evaluation-service/rand"
                  500 (afterFetch [])) = 500
  ∧ ∃ numberid,
      numberid ∈ ["p"; "f"; "e"; "r"]
      ∧ API_ENDPOINTS !! numberid
        = Some (fetchUrl
                  (mkSuspended "http://20.244.56.144/evaluation-service/rand"
                     500 (afterFetch []))).
Proof.
  apply (runServer_suspended [Arrives "x"; Arrives "r"]).
  unfold runServer. cbn [fold_left].
  unfold step at 2. rewrite (numbersRoute_invalid "x") by compute_done.
  unfold step. rewrite (numbersRoute_valid "r") by compute_done.
  cbn [suspended initialServer app]. apply list_elem_of_here.
Defined.
